(** * gluonnlp.data.utils: token counters and sequence windowing

    A shallow embedding of the pure helpers of
    [src/gluonnlp/data/utils.py]: [Counter.discard],
    [DefaultLookupDict], [count_tokens], [concat_sequence],
    [slice_sequence], [_slice_pad_length] and [short_hash].

    Python integers are [Z]; [//] and [%] are [Z.div] and [Z.modulo]
    (both round towards minus infinity for a positive divisor, as Python
    does); lists are [list]; a [dict] is a [gmap]; a function that can
    [raise] returns a [result]. *)

From Stdlib Require Import ZArith List Lia Bool.
From stdpp Require Import gmap strings list fin_maps.

Local Open Scope Z_scope.

(** ** Python primitives *)

Module Py.

(** Exceptions the modelled functions can raise. *)
Inductive exn : Type :=
| ValueError (msg : string)
| KeyError.

Definition result (A : Type) : Type := (exn + A)%type.

Definition raise {A : Type} (e : exn) : result A := inl e.
Definition ret {A : Type} (a : A) : result A := inr a.
Definition bind {A B : Type} (m : result A) (k : A -> result B) : result B :=
  match m with
  | inl e => inl e
  | inr a => k a
  end.

(** [bool(x)]: the truth value Python gives an object. *)
Class PyBool (T : Type) : Type := truthy : T -> bool.

#[export] Instance PyBool_int : PyBool Z := fun z => negb (z =? 0).
#[export] Instance PyBool_bool : PyBool bool := fun b => b.
#[export] Instance PyBool_str : PyBool string :=
  fun s => match s with EmptyString => false | String _ _ => true end.
(** [None] is falsy; any other object answers for itself. *)
#[export] Instance PyBool_optional {T : Type} `{PyBool T} : PyBool (option T) :=
  fun o => match o with None => false | Some x => truthy x end.
#[export] Instance PyBool_list {T : Type} : PyBool (list T) :=
  fun l => match l with nil => false | _ :: _ => true end.

(** [len(s)] *)
Definition len {T : Type} (s : list T) : Z := Z.of_nat (length s).

(** [range(n)]: empty when [n <= 0]. *)
Definition range (n : Z) : list Z := seqZ 0 n.

(** [[x] * k]: empty when [k <= 0]. *)
Definition repeat_list {T : Type} (x : T) (k : Z) : list T :=
  replicate (Z.to_nat k) x.

(** Index adjustment of a slice bound for a sequence of [n] items: a
    negative bound counts from the end, and every bound is clamped to
    [0 .. n]. *)
Definition adjust_index (n i : Z) : Z :=
  if i <? 0 then Z.max (i + n) 0 else Z.min i n.

(** [s[start:stop]] *)
Definition slice {T : Type} (s : list T) (start stop : Z) : list T :=
  let n := len s in
  let lo := adjust_index n start in
  let hi := adjust_index n stop in
  take (Z.to_nat (hi - lo)) (drop (Z.to_nat lo) s).

(** [d.get(k, dflt)] *)
Definition dict_get `{Countable K} {V : Type} (d : gmap K V) (k : K) (dflt : V) : V :=
  match d !! k with
  | Some v => v
  | None => dflt
  end.

(** [d[k]] of a plain [dict]. *)
Definition dict_getitem `{Countable K} {V : Type} (d : gmap K V) (k : K) : result V :=
  match d !! k with
  | Some v => ret v
  | None => raise KeyError
  end.

(** [sum(d.values())] *)
Definition sum_values `{Countable K} (d : gmap K Z) : Z :=
  map_fold (fun _ count acc => count + acc) 0 d.

End Py.

Import Py.

Notation "'let*' x ':=' m 'in' k" := (bind m (fun x => k))
  (at level 10, x name, m at level 100, k at level 200).

(** ** Sequence windowing *)

Definition overlap_error : exn :=
  ValueError "length needs to be larger than overlap".

(* def _slice_pad_length(num_items, length, overlap=0) *)
Definition _slice_pad_length (num_items length overlap : Z) : result Z :=
  if length <=? overlap then raise overlap_error
  else
    let step := length - overlap in
    let span := num_items - length in
    let residual := span `mod` step in
    if truthy residual then ret (step - residual) else ret 0.

(* def slice_sequence(sequence, length, pad_last=False, pad_val=C.PAD_TOKEN, overlap=0) *)
Definition slice_sequence {T : Type} (sequence : list T) (length : Z)
    (pad_last : bool) (pad_val : T) (overlap : Z) : result (list (list T)) :=
  if length <=? overlap then raise overlap_error
  else
    let* sequence :=
      (if pad_last then
         let* pad_len := _slice_pad_length (len sequence) length overlap in
         ret (sequence ++ repeat_list pad_val pad_len)
       else ret sequence) in
    let num_samples := (len sequence - length) `div` (length - overlap) + 1 in
    ret (map (fun i => slice sequence (i * (length - overlap))
                             ((i + 1) * length - i * overlap))
             (range num_samples)).

(** The windows as the specification words them: [num_windows] strides of
    [step = length - overlap], window [i] covering the index range
    [i*step, i*step + length), and no window at all for a sequence shorter
    than [length]. *)
Definition spec_num_windows (n length overlap : Z) : nat :=
  if n <? length then 0%nat
  else Z.to_nat ((n - length) `div` (length - overlap) + 1).

Definition spec_window {T : Type} (sequence : list T) (length overlap : Z) (i : nat) : list T :=
  take (Z.to_nat length) (drop (i * Z.to_nat (length - overlap)) sequence).

Definition spec_windows {T : Type} (sequence : list T) (length overlap : Z) : list (list T) :=
  map (spec_window sequence length overlap)
      (seq 0 (spec_num_windows (len sequence) length overlap)).

(** ** Concatenation *)

(* return [token for seq in sequences for token in seq if token] *)
Definition concat_sequence {T : Type} `{PyBool T} (sequences : list (list T)) : list T :=
  flat_map (fun seq => List.filter (fun token => truthy token) seq) sequences.

(** ** Token counter *)

Module Counter.
Section discard.
Context `{Countable K}.

(** One turn of the loop over [self.items()]: the state is the pair
    of [freq] and [ret]. *)
Definition discard_step (min_freq : Z) (token : K) (count : Z)
    (st : Z * gmap K Z) : Z * gmap K Z :=
  let '(freq, ret) := st in
  if count <? min_freq then (freq + count, ret)
  else (freq, <[token := count]> ret).

(* def discard(self, min_freq, unknown_token) *)
Definition discard (self : gmap K Z) (min_freq : Z) (unknown_token : K) : gmap K Z :=
  let '(freq, ret) := map_fold (discard_step min_freq) (0, ∅) self in
  <[unknown_token := dict_get ret unknown_token 0 + freq]> ret.
End discard.
End Counter.

(** ** Dictionary with a fall-back value *)

Module DefaultLookupDict.
Section lookup.
Context `{Countable K} {V : Type}.

(** The object: the inherited [dict] contents and [self._default]. *)
Record t : Type := Build {
  items : gmap K V;
  _default : V
}.

(** An argument [d] is used only when it is truthy: neither [None]
    nor an empty mapping. *)
Definition dict_truthy (d : option (gmap K V)) : bool :=
  match d with
  | None => false
  | Some m => negb (bool_decide (m = ∅))
  end.

(* def __init__(self, default, d=None) *)
Definition __init__ (default : V) (d : option (gmap K V)) : t :=
  if dict_truthy d
  then {| items := match d with Some m => m | None => ∅ end; _default := default |}
  else {| items := ∅; _default := default |}.

(* def __getitem__(self, k) *)
Definition __getitem__ (self : t) (k : K) : result V :=
  ret (dict_get (items self) k (_default self)).
End lookup.
Arguments t K {_ _} V.
End DefaultLookupDict.

(** ** Counting tokens *)

(** [counter.update(tokens)] of [collections.Counter] for an iterable of
    tokens: each item adds one to its count, a missing key counting as 0. *)
Definition counter_update `{Countable K} (counter : gmap K Z) (tokens : list K) : gmap K Z :=
  foldl (fun c token => <[token := dict_get c token 0 + 1]> c) counter tokens.

(** [tokens.count(t)] *)
Definition occurrences `{EqDecision K} (t : K) (tokens : list K) : Z :=
  len (filter (fun x => x = t) tokens).

Section count_tokens.
(** [str.lower], a built-in of the language. *)
Variable lower : string -> string.

(* def count_tokens(tokens, to_lower=False, counter=None) *)
Definition count_tokens (tokens : list string) (to_lower : bool)
    (counter : option (gmap string Z)) : gmap string Z :=
  let tokens := if to_lower then map lower tokens else tokens in
  match counter with
  | None => counter_update ∅ tokens
  | Some counter => counter_update counter tokens
  end.
End count_tokens.

(** ** Hashes of the hosted vocabularies *)

(** The literal of [_vocab_sha1], in source order. *)
Definition _vocab_sha1_items : list (string * string) := [
  ("wikitext-2", "be36dc5238c2e7d69720881647ab72eb506d0131");
  ("gbw", "ebb1a287ca14d8fa6f167c3a779e5e7ed63ac69f");
  ("WMT2014_src", "230ebb817b1d86950d71e2e765f192a4e4f34415");
  ("WMT2014_tgt", "230ebb817b1d86950d71e2e765f192a4e4f34415");
  ("book_corpus_wiki_en_cased", "2d62af22535ed51f35cc8e2abb607723c89c2636");
  ("book_corpus_wiki_en_uncased", "a66073971aa0b1a262453fe51342e57166a8abcf");
  ("openwebtext_book_corpus_wiki_en_uncased", "a66073971aa0b1a262453fe51342e57166a8abcf");
  ("openwebtext_ccnews_stories_books_cased", "2b804f8f90f9f93c07994b703ce508725061cf43");
  ("wiki_multilingual_cased", "0247cb442074237c38c62021f36b7a4dbd2e55f7");
  ("wiki_cn_cased", "ddebd8f3867bca5a61023f73326fb125cf12b4f5");
  ("wiki_multilingual_uncased", "2b2514cc539047b9179e9d98a4e68c36db05c97a");
  ("scibert_scivocab_uncased", "2d2566bfc416790ab2646ab0ada36ba628628d60");
  ("scibert_scivocab_cased", "2c714475b521ab8542cb65e46259f6bfeed8041b");
  ("scibert_basevocab_uncased", "80ef760a6bdafec68c99b691c94ebbb918c90d02");
  ("scibert_basevocab_cased", "a4ff6fe1f85ba95f3010742b9abc3a818976bb2c");
  ("biobert_v1.0_pmc_cased", "a4ff6fe1f85ba95f3010742b9abc3a818976bb2c");
  ("biobert_v1.0_pubmed_cased", "a4ff6fe1f85ba95f3010742b9abc3a818976bb2c");
  ("biobert_v1.0_pubmed_pmc_cased", "a4ff6fe1f85ba95f3010742b9abc3a818976bb2c");
  ("biobert_v1.1_pubmed_cased", "a4ff6fe1f85ba95f3010742b9abc3a818976bb2c");
  ("clinicalbert_uncased", "80ef760a6bdafec68c99b691c94ebbb918c90d02");
  ("baidu_ernie_uncased", "223553643220255e2a0d4c60e946f4ad7c719080");
  ("openai_webtext", "f917dc7887ce996068b0a248c8d89a7ec27b95a1")
]%string.

Definition _vocab_sha1 : gmap string string := list_to_map _vocab_sha1_items.

(** [s[start:stop]] on a [str]. *)
Definition str_slice (s : string) (start stop : Z) : string :=
  String.string_of_list_ascii (slice (String.list_ascii_of_string s) start stop).

(** [repr] of a [str] that has no quote, backslash or control character,
    as the keys of [_vocab_sha1] are, and of a list of such. *)
Definition repr_str (s : string) : string := "'" +:+ s +:+ "'".
Definition repr_list (l : list string) : string :=
  "[" +:+ String.concat ", " (map repr_str l) +:+ "]".

Definition short_hash_error (name : string) : exn :=
  ValueError ("Vocabulary for " +:+ name +:+ " is not available. "
              +:+ "Hosted vocabularies include: "
              +:+ repr_list (map fst _vocab_sha1_items)).

(* def short_hash(name) *)
Definition short_hash (name : string) : result string :=
  match _vocab_sha1 !! name with
  | None => raise (short_hash_error name)
  | Some sha1 => ret (str_slice sha1 0 8)
  end.

(** * Properties *)

(** ** Worked calls of [slice_sequence] *)

Example slice_plain :
  forall pad : Z, slice_sequence [1; 2; 3; 4; 5; 6] 3 false pad 0 = inr [[1; 2; 3]; [4; 5; 6]].
Proof. reflexivity. Qed.

Example slice_drop_tail :
  forall pad : Z, slice_sequence [1; 2; 3; 4; 5] 3 false pad 0 = inr [[1; 2; 3]].
Proof. reflexivity. Qed.

Example slice_pad_tail :
  slice_sequence [1; 2; 3; 4; 5] 3 true 0 0 = inr [[1; 2; 3]; [4; 5; 0]].
Proof. reflexivity. Qed.

(** ** Slices inside the sequence *)

Section slice_facts.
Context {T : Type}.
Implicit Types (s : list T) (a k i n : Z).

Lemma adjust_index_inside n i : 0 <= i <= n -> adjust_index n i = i.
Proof.
  intros Hi. unfold adjust_index.
  destruct (Z.ltb_spec i 0); lia.
Qed.

(** A slice whose bounds lie inside the sequence is a [take] of a [drop]. *)
Lemma slice_inside s a k :
  0 <= a -> 0 <= k -> a + k <= len s ->
  slice s a (a + k) = take (Z.to_nat k) (drop (Z.to_nat a) s).
Proof.
  intros Ha Hk Hlen. unfold slice.
  rewrite !adjust_index_inside by lia.
  do 2 f_equal. lia.
Qed.

Lemma slice_inside_length s a k :
  0 <= a -> 0 <= k -> a + k <= len s -> len (slice s a (a + k)) = k.
Proof.
  intros Ha Hk Hlen. rewrite slice_inside by assumption.
  unfold len in *. rewrite length_take, length_drop. lia.
Qed.

(** The last window counted by [num_samples] still ends inside the
    sequence. *)
Lemma sample_inside n length overlap i :
  overlap < length ->
  0 <= i < (n - length) `div` (length - overlap) + 1 ->
  i * (length - overlap) + length <= n.
Proof.
  intros Hstep [Hi0 Hi].
  assert (Hd : (length - overlap) * ((n - length) `div` (length - overlap)) <= n - length)
    by (apply Z.mul_div_le; lia).
  nia.
Qed.

Lemma elem_of_range i n : i ∈ range n -> 0 <= i < n.
Proof. unfold range. rewrite elem_of_seqZ. lia. Qed.
End slice_facts.

(** What [slice_sequence] computes once the guard has passed. *)
Lemma slice_sequence_no_pad {T : Type} (sequence : list T) length pad_val overlap :
  overlap < length ->
  slice_sequence sequence length false pad_val overlap =
  inr (map (fun i => slice sequence (i * (length - overlap))
                           ((i + 1) * length - i * overlap))
           (range ((len sequence - length) `div` (length - overlap) + 1))).
Proof.
  intros Hlt. unfold slice_sequence.
  destruct (Z.leb_spec length overlap); [lia | reflexivity].
Qed.

Lemma slice_pad_length_ok num_items length overlap :
  overlap < length ->
  exists pad_len, _slice_pad_length num_items length overlap = inr pad_len /\ 0 <= pad_len.
Proof.
  intros Hlt. unfold _slice_pad_length.
  destruct (Z.leb_spec length overlap); [lia |].
  pose proof (Z.mod_pos_bound (num_items - length) (length - overlap) ltac:(lia)).
  destruct (truthy _); eexists; (split; [reflexivity | lia]).
Qed.

Lemma slice_sequence_pad {T : Type} (sequence : list T) length pad_val overlap :
  overlap < length ->
  exists pad_len,
    _slice_pad_length (len sequence) length overlap = inr pad_len /\ 0 <= pad_len /\
    let padded := sequence ++ repeat_list pad_val pad_len in
    slice_sequence sequence length true pad_val overlap =
    inr (map (fun i => slice padded (i * (length - overlap))
                             ((i + 1) * length - i * overlap))
             (range ((len padded - length) `div` (length - overlap) + 1))).
Proof.
  intros Hlt.
  destruct (slice_pad_length_ok (len sequence) length overlap Hlt) as (pad_len & Hpad & Hpos).
  exists pad_len. split; [assumption | split; [assumption |]].
  unfold slice_sequence.
  destruct (Z.leb_spec length overlap); [lia |].
  rewrite Hpad. reflexivity.
Qed.

(** Every window cut from [s] by the comprehension is full. *)
Lemma windows_full {T : Type} (s : list T) length overlap :
  0 <= overlap < length ->
  Forall (fun w => len w = length)
    (map (fun i => slice s (i * (length - overlap)) ((i + 1) * length - i * overlap))
         (range ((len s - length) `div` (length - overlap) + 1))).
Proof.
  intros Hlo. apply Forall_fmap, Forall_forall. intros i Hi. simpl.
  apply elem_of_range in Hi.
  pose proof (sample_inside (len s) length overlap i ltac:(lia) Hi) as Hin.
  replace ((i + 1) * length - i * overlap) with (i * (length - overlap) + length) by lia.
  apply slice_inside_length; nia.
Qed.

(** C1: under [length > overlap >= 0], whatever the sequence, [pad_last]
    and [pad_val], [slice_sequence] returns a list of windows and each of
    them has exactly [length] elements. *)
Theorem slice_sequence_window_length {T : Type} (sequence : list T) (length : Z)
    (pad_last : bool) (pad_val : T) (overlap : Z) :
  0 <= overlap < length ->
  exists windows,
    slice_sequence sequence length pad_last pad_val overlap = inr windows /\
    Forall (fun w => len w = length) windows.
Proof.
  intros Hlo. destruct pad_last.
  - destruct (slice_sequence_pad sequence length pad_val overlap ltac:(lia))
      as (pad_len & _ & _ & Heq).
    eexists. split; [exact Heq |]. by apply windows_full.
  - eexists. split; [apply slice_sequence_no_pad; lia |]. by apply windows_full.
Qed.

Lemma slice_sequence_window_length_witness :
  exists windows,
    slice_sequence [1; 2; 3; 4; 5; 6; 7] 4 true 0 1 = inr windows /\
    Forall (fun w => len w = 4) windows.
Proof. apply (slice_sequence_window_length [1; 2; 3; 4; 5; 6; 7] 4 true 0 1). lia. Defined.

(** ** Windows without padding *)

Lemma num_samples_short n length overlap :
  0 <= overlap < length -> n < length ->
  (n - length) `div` (length - overlap) + 1 <= 0.
Proof.
  intros Hlo Hn.
  assert ((n - length) `div` (length - overlap) < 0)
    by (apply Z.div_lt_upper_bound; lia).
  lia.
Qed.

Lemma range_as_seq (n : Z) : range n = map Z.of_nat (seq 0 (Z.to_nat n)).
Proof.
  unfold range, seqZ. apply map_ext. intros i. lia.
Qed.

(** The comprehension window [i] is the specification's window [i]. *)
Lemma slice_is_spec_window {T : Type} (s : list T) length overlap (i : nat) :
  0 <= overlap < length ->
  Z.of_nat i < (len s - length) `div` (length - overlap) + 1 ->
  slice s (Z.of_nat i * (length - overlap)) ((Z.of_nat i + 1) * length - Z.of_nat i * overlap)
  = spec_window s length overlap i.
Proof.
  intros Hlo Hi.
  pose proof (sample_inside (len s) length overlap (Z.of_nat i) ltac:(lia) ltac:(lia)) as Hin.
  replace ((Z.of_nat i + 1) * length - Z.of_nat i * overlap)
    with (Z.of_nat i * (length - overlap) + length) by lia.
  rewrite slice_inside by nia.
  unfold spec_window. do 2 f_equal.
  rewrite Z2Nat.inj_mul by lia. by rewrite Nat2Z.id.
Qed.

Lemma slice_sequence_no_pad_windows {T : Type} (sequence : list T) length pad_val overlap :
  0 <= overlap < length ->
  slice_sequence sequence length false pad_val overlap
    = inr (spec_windows sequence length overlap).
Proof.
  intros Hlo.
  rewrite slice_sequence_no_pad by lia. f_equal.
  unfold spec_windows, spec_num_windows.
  destruct (Z.ltb_spec (len sequence) length) as [Hshort | Hlong].
  - pose proof (num_samples_short (len sequence) length overlap Hlo Hshort).
    rewrite range_as_seq.
    replace (Z.to_nat _) with 0%nat by lia. reflexivity.
  - rewrite range_as_seq, map_map.
    apply map_ext_in. intros i Hi. apply in_seq in Hi.
    apply slice_is_spec_window; [assumption | lia].
Qed.

(** C2: with [pad_last=False] and [length > overlap >= 0] the result is
    exactly the list of windows [sequence[i*step : i*step + length]] for
    [i] from 0 to [num_windows - 1], with [step = length - overlap] and
    [num_windows = floor((n - length) / step) + 1], none when [n < length];
    each of them is full, so a trailing partial window is never emitted. *)
Theorem slice_sequence_no_pad_spec {T : Type} (sequence : list T) (length : Z)
    (pad_val : T) (overlap : Z) :
  0 <= overlap < length ->
  slice_sequence sequence length false pad_val overlap
    = inr (spec_windows sequence length overlap) /\
  Forall (fun w => len w = length) (spec_windows sequence length overlap).
Proof.
  intros Hlo.
  pose proof (slice_sequence_no_pad_windows sequence length pad_val overlap Hlo) as Heq.
  split; [exact Heq |].
  rewrite slice_sequence_no_pad in Heq by lia.
  injection Heq as <-. by apply windows_full.
Qed.

Lemma slice_sequence_no_pad_spec_witness :
  slice_sequence [1; 2; 3; 4; 5; 6; 7; 8] 3 false 0 1
    = inr (spec_windows [1; 2; 3; 4; 5; 6; 7; 8] 3 1) /\
  Forall (fun w => len w = 3) (spec_windows [1; 2; 3; 4; 5; 6; 7; 8] 3 1).
Proof. apply (slice_sequence_no_pad_spec [1; 2; 3; 4; 5; 6; 7; 8] 3 0 1). lia. Defined.

(** ** The guard *)

(** C4: [slice_sequence] raises exactly when [length <= overlap], and the
    error is the [ValueError] of the guard, whatever the sequence (the
    empty one included), [pad_last] and [pad_val]: nothing of the padding
    or of the windowing is looked at before. *)
Theorem slice_sequence_raises_iff {T : Type} (sequence : list T) (length : Z)
    (pad_last : bool) (pad_val : T) (overlap : Z) :
  ((exists e, slice_sequence sequence length pad_last pad_val overlap = inl e)
     <-> length <= overlap) /\
  (slice_sequence sequence length pad_last pad_val overlap = inl overlap_error
     <-> length <= overlap).
Proof.
  assert (Hok : overlap < length ->
                exists ws, slice_sequence sequence length pad_last pad_val overlap = inr ws).
  { intros Hlt. destruct pad_last.
    - destruct (slice_sequence_pad sequence length pad_val overlap Hlt)
        as (pad_len & _ & _ & Heq).
      eexists. exact Heq.
    - eexists. by apply slice_sequence_no_pad. }
  assert (Herr : length <= overlap ->
                 slice_sequence sequence length pad_last pad_val overlap = inl overlap_error).
  { intros Hle. unfold slice_sequence.
    destruct (Z.leb_spec length overlap); [reflexivity | lia]. }
  split; split.
  - intros [e He]. destruct (Z.le_gt_cases length overlap) as [Hle | Hgt]; [assumption |].
    destruct (Hok Hgt) as [ws Hws]. congruence.
  - intros Hle. exists overlap_error. auto.
  - intros He. destruct (Z.le_gt_cases length overlap) as [Hle | Hgt]; [assumption |].
    destruct (Hok Hgt) as [ws Hws]. congruence.
  - exact Herr.
Qed.

Example slice_sequence_raises_2_2 :
  forall pad : Z, slice_sequence [1; 2; 3] 2 false pad 2 = inl overlap_error.
Proof. reflexivity. Qed.

(** ** Round trip *)

(** Cutting a list into [k] consecutive chunks of [L] items and joining
    them gives the list back. *)
Lemma concat_chunks {T : Type} (L k : nat) (s : list T) :
  List.length s = (k * L)%nat ->
  concat (map (fun i : nat => take L (drop (i * L) s)) (seq 0 k)) = s.
Proof.
  revert s. induction k as [| k IH]; intros s Hlen.
  - destruct s; [reflexivity | discriminate].
  - cbn [seq map concat]. rewrite <- seq_shift, map_map.
    transitivity (take L s ++ drop L s); [| apply take_drop].
    f_equal.
    rewrite <- (IH (drop L s)) by (rewrite length_drop; lia).
    f_equal. apply map_ext. intros i.
    rewrite drop_drop. reflexivity.
Qed.

(** C5: for [length > 0] dividing the length of the sequence, joining in
    order the windows of [slice_sequence] called with [pad_last=False] and
    [overlap=0] gives the sequence back. *)
Theorem slice_sequence_concat_roundtrip {T : Type} (sequence : list T) (length : Z)
    (pad_val : T) :
  0 < length ->
  len sequence `mod` length = 0 ->
  exists windows,
    slice_sequence sequence length false pad_val 0 = inr windows /\
    concat windows = sequence.
Proof.
  intros Hpos Hdiv.
  exists (spec_windows sequence length 0).
  split; [apply slice_sequence_no_pad_windows; lia |].
  apply Z.mod_divide in Hdiv; [| lia]. destruct Hdiv as [q Hq].
  unfold spec_windows, spec_window, spec_num_windows.
  rewrite Z.sub_0_r.
  assert (Hq0 : 0 <= q) by (unfold len in *; nia).
  destruct (Z.ltb_spec (len sequence) length) as [Hshort | Hlong].
  - assert (q = 0) by nia. subst q.
    destruct sequence; [reflexivity | discriminate].
  - replace (Z.to_nat ((len sequence - length) `div` length + 1)) with (Z.to_nat q).
    + apply concat_chunks. unfold len in Hq. nia.
    + rewrite Hq. replace (q * length - length) with ((q - 1) * length) by lia.
      rewrite Z.div_mul by lia. f_equal. lia.
Qed.

Lemma slice_sequence_concat_roundtrip_witness :
  exists windows,
    slice_sequence [1; 2; 3; 4; 5; 6] 2 false 0 0 = inr windows /\
    concat windows = [1; 2; 3; 4; 5; 6].
Proof.
  apply (slice_sequence_concat_roundtrip [1; 2; 3; 4; 5; 6] 2 0); [lia | reflexivity].
Defined.

(** ** Worked example with overlap, and the empty sequence *)

(** C6: [slice_sequence([1,2,3,4,5,6], length=4, overlap=2)] is
    [[1,2,3,4],[3,4,5,6]]; the last two items of the first window are the
    first two of the second. *)
Theorem slice_sequence_overlap_example (pad_val : Z) :
  slice_sequence [1; 2; 3; 4; 5; 6] 4 false pad_val 2
    = inr [[1; 2; 3; 4]; [3; 4; 5; 6]] /\
  drop 2 [1; 2; 3; 4] = take 2 [3; 4; 5; 6].
Proof. split; reflexivity. Qed.

(** C7: with [pad_last=False] and [length > overlap >= 0] the empty
    sequence gives the empty list of windows. *)
Theorem slice_sequence_empty {T : Type} (length : Z) (pad_val : T) (overlap : Z) :
  0 <= overlap < length ->
  slice_sequence (@nil T) length false pad_val overlap = inr [].
Proof.
  intros Hlo. rewrite slice_sequence_no_pad by lia. f_equal.
  pose proof (num_samples_short (len (@nil T)) length overlap Hlo ltac:(unfold len; simpl; lia)).
  rewrite range_as_seq.
  replace (Z.to_nat _) with 0%nat by lia. reflexivity.
Qed.

Lemma slice_sequence_empty_witness :
  slice_sequence (@nil Z) 5 false 0 3 = inr [].
Proof. apply (slice_sequence_empty 5 0 3). lia. Defined.

(** ** Padding the last window *)

(** After padding, the items beyond the first window are a whole number
    [m] of strides; [m] is negative when the sequence is no longer than
    the overlap. *)
Lemma slice_pad_length_strides n length overlap pad_len :
  overlap < length ->
  _slice_pad_length n length overlap = inr pad_len ->
  exists m, n + pad_len - length = m * (length - overlap) /\
            (overlap < n -> 0 <= m) /\ 0 <= pad_len.
Proof.
  intros Hlt. unfold _slice_pad_length.
  destruct (Z.leb_spec length overlap); [lia |].
  pose proof (Z.mod_pos_bound (n - length) (length - overlap) ltac:(lia)) as Hr.
  pose proof (Z.div_mod (n - length) (length - overlap) ltac:(lia)) as Hqr.
  unfold truthy, PyBool_int.
  destruct (Z.eqb_spec ((n - length) `mod` (length - overlap)) 0) as [Hz | Hnz];
    cbn [negb]; intros [= <-].
  - exists ((n - length) `div` (length - overlap)). repeat split; nia.
  - exists ((n - length) `div` (length - overlap) + 1). repeat split; nia.
Qed.

(** Item [j] of the padded sequence lies in the window that starts at
    stride [min (j / step) m]. *)
Lemma window_covers {T : Type} (padded : list T) length overlap m (j : nat) x :
  0 <= overlap < length -> 0 <= m ->
  len padded - length = m * (length - overlap) ->
  padded !! j = Some x ->
  exists i, 0 <= i < m + 1 /\
    x ∈ slice padded (i * (length - overlap)) ((i + 1) * length - i * overlap).
Proof.
  intros Hlo Hm Hlen Hj.
  assert (Hjn : Z.of_nat j < len padded)
    by (unfold len; apply lookup_lt_Some in Hj; lia).
  set (step := length - overlap) in *.
  pose proof (Z.div_mod (Z.of_nat j) step ltac:(lia)) as Hqr.
  pose proof (Z.mod_pos_bound (Z.of_nat j) step ltac:(lia)) as Hr.
  assert (Hq : 0 <= Z.of_nat j `div` step) by (apply Z.div_pos; lia).
  set (i := Z.min (Z.of_nat j `div` step) m).
  assert (Hi : 0 <= i <= m) by lia.
  assert (Hlow : i * step <= Z.of_nat j) by nia.
  assert (Hhigh : Z.of_nat j < i * step + length).
  { destruct (Z.le_gt_cases (Z.of_nat j `div` step) m).
    - replace i with (Z.of_nat j `div` step) by lia. nia.
    - replace i with m by lia. lia. }
  exists i. split; [lia |].
  replace ((i + 1) * length - i * overlap) with (i * step + length) by (subst step; lia).
  rewrite slice_inside by nia.
  apply (list_elem_of_lookup_2 _ (j - Z.to_nat (i * step))).
  rewrite lookup_take_lt by lia.
  rewrite lookup_drop. rewrite <- Hj. f_equal. lia.
Qed.

(** X3: where padding does its work: for a sequence longer than the
    overlap, the padded sequence reaches [length], there is a window, and
    every item of the sequence is in some window. *)
Lemma slice_sequence_pad_covers {T : Type} (sequence : list T) length pad_val overlap :
  0 <= overlap < length ->
  overlap < len sequence ->
  exists pad_len windows,
    _slice_pad_length (len sequence) length overlap = inr pad_len /\
    length <= len (sequence ++ repeat_list pad_val pad_len) /\
    slice_sequence sequence length true pad_val overlap = inr windows /\
    windows <> [] /\
    forall x, x ∈ sequence -> exists w, w ∈ windows /\ x ∈ w.
Proof.
  intros Hlo Hlong.
  destruct (slice_sequence_pad sequence length pad_val overlap ltac:(lia))
    as (pad_len & Hpad & Hpos & Heq).
  destruct (slice_pad_length_strides (len sequence) length overlap pad_len
              ltac:(lia) Hpad) as (m & Hm & Hm0 & _).
  specialize (Hm0 Hlong).
  set (padded := sequence ++ repeat_list pad_val pad_len) in *.
  assert (Hlen : len padded = len sequence + pad_len).
  { unfold padded, len, repeat_list. rewrite length_app, length_replicate. lia. }
  cbv zeta in Heq.
  assert (Hn : (len padded - length) `div` (length - overlap) + 1 = m + 1).
  { rewrite Hlen, Hm, Z.div_mul by lia. reflexivity. }
  rewrite Hn in Heq.
  eexists pad_len, _. split; [exact Hpad |].
  split; [fold padded; rewrite Hlen; nia |]. split; [exact Heq |].
  split.
  - rewrite range_as_seq. replace (Z.to_nat (m + 1)) with (S (Z.to_nat m)) by lia.
    discriminate.
  - intros x Hx. apply list_elem_of_lookup_1 in Hx as [j Hj].
    destruct (window_covers padded length overlap m j x Hlo Hm0 ltac:(lia)
                (lookup_app_l_Some _ _ _ _ Hj)) as (i & Hi & Hin).
    eexists. split; [| exact Hin].
    apply (list_elem_of_fmap_2
             (fun i => slice padded (i * (length - overlap))
                             ((i + 1) * length - i * overlap))).
    unfold range. rewrite elem_of_seqZ. lia.
Qed.

(** C3, at a sequence no longer than the overlap: for the one-item
    sequence with [length=2], [overlap=1] and [pad_last=True] the pad
    length is 0, the sequence stays shorter than [length], and no window
    is returned: the item is dropped. *)
Theorem slice_sequence_pad_short_dropped {T : Type} (x pad_val : T) :
  _slice_pad_length (len [x]) 2 1 = inr 0 /\
  slice_sequence [x] 2 true pad_val 1 = inr [].
Proof. split; reflexivity. Qed.

(** ** Concatenation drops falsy tokens *)

Lemma concat_sequence_filter {T : Type} `{PyBool T} (sequences : list (list T)) :
  concat_sequence sequences = List.filter truthy (concat sequences).
Proof.
  unfold concat_sequence.
  induction sequences as [| seq rest IH]; [reflexivity |].
  cbn [flat_map concat]. rewrite List.filter_app. by f_equal.
Qed.

(** C8: [concat_sequence] is the in-order concatenation of the inner
    sequences with the falsy tokens removed: a token is in the result
    exactly when it is in some inner sequence and is truthy. So [0], the
    empty string and [None] are dropped, and the result can differ from
    the plain flattening. *)
Theorem concat_sequence_drops_falsy {T : Type} `{PyBool T} (sequences : list (list T)) :
  concat_sequence sequences = List.filter truthy (concat sequences) /\
  (forall token,
     In token (concat_sequence sequences) <->
     (exists seq, In seq sequences /\ In token seq) /\ truthy token = true) /\
  concat_sequence [[0; 7]; [8; 0]] = [7; 8] /\
  concat_sequence [["a"; ""]; [""; "b"]]%string = ["a"; "b"]%string /\
  concat_sequence [[Some 3; None]; [None; Some 0]] = [Some 3] /\
  concat_sequence [[0; 7]; [8; 0]] <> concat [[0; 7]; [8; 0]].
Proof.
  split; [apply concat_sequence_filter |].
  split; [| repeat split; discriminate].
  intros token. rewrite concat_sequence_filter, filter_In, in_concat.
  firstorder.
Qed.

(** ** [Counter.discard] keeps the total *)

Section counter_facts.
Context `{Countable K}.
Implicit Types (m ret : gmap K Z) (k : K).

Lemma sum_values_empty : sum_values (∅ : gmap K Z) = 0.
Proof. unfold sum_values. apply map_fold_empty. Qed.

Lemma sum_values_insert_fresh m k v :
  m !! k = None -> sum_values (<[k := v]> m) = v + sum_values m.
Proof.
  intros Hk. unfold sum_values.
  rewrite map_fold_insert_L; [reflexivity | | assumption].
  intros; lia.
Qed.

Lemma sum_values_delete m k v :
  m !! k = Some v -> sum_values m = v + sum_values (delete k m).
Proof.
  intros Hk. rewrite <- (insert_delete_id m k v Hk) at 1.
  apply sum_values_insert_fresh, lookup_delete_eq.
Qed.

(** Assigning [m[k] = v] changes the total by [v] minus the old count. *)
Lemma sum_values_insert m k v :
  sum_values (<[k := v]> m) = v + sum_values m - dict_get m k 0.
Proof.
  unfold dict_get. destruct (m !! k) as [old |] eqn:Hk.
  - rewrite <- insert_delete_eq.
    rewrite sum_values_insert_fresh by apply lookup_delete_eq.
    rewrite (sum_values_delete m k old Hk). lia.
  - rewrite sum_values_insert_fresh by assumption. lia.
Qed.

(** Loop invariant of [discard]: [freq] and the counts kept in [ret]
    add up to the counts seen so far, and [ret] holds seen keys only. *)
Lemma discard_loop_invariant (self : gmap K Z) min_freq :
  let st := map_fold (Counter.discard_step min_freq) (0, ∅) self in
  st.1 + sum_values st.2 = sum_values self /\
  (forall k, self !! k = None -> st.2 !! k = None).
Proof.
  cbv zeta.
  apply (map_fold_weak_ind
           (fun (st : Z * gmap K Z) (m : gmap K Z) =>
              st.1 + sum_values st.2 = sum_values m /\
              (forall k, m !! k = None -> st.2 !! k = None))).
  - split; [reflexivity | intros; apply lookup_empty].
  - intros token count m [freq ret] Hfresh [Hsum Hdom]. cbn [fst snd] in *.
    rewrite (sum_values_insert_fresh m token count Hfresh).
    unfold Counter.discard_step.
    destruct (count <? min_freq); cbn [fst snd].
    + split; [lia |].
      intros k Hk. apply Hdom.
      apply lookup_insert_None in Hk. tauto.
    + rewrite sum_values_insert_fresh by auto.
      split; [lia |].
      intros k Hk. apply lookup_insert_None in Hk as [Hk Hne].
      rewrite lookup_insert_ne by assumption. auto.
Qed.
End counter_facts.

(** C9: the counts of [c.discard(min_freq, unknown_token)] add up to the
    counts of [c], and the returned counter has the key [unknown_token],
    with count 0 when no count is below the threshold and the key was not
    in [c]. *)
Theorem discard_preserves_total `{Countable K} (c : gmap K Z) (min_freq : Z)
    (unknown_token : K) :
  sum_values (Counter.discard c min_freq unknown_token) = sum_values c /\
  is_Some (Counter.discard c min_freq unknown_token !! unknown_token) /\
  Counter.discard ({[ "a" := 10 ]} : gmap string Z) 3 "<unk>" !! "<unk>" = Some 0.
Proof.
  pose proof (discard_loop_invariant c min_freq) as Hinv. cbv zeta in Hinv.
  unfold Counter.discard.
  destruct (map_fold (Counter.discard_step min_freq) (0, ∅) c) as [freq ret].
  cbn [fst snd] in Hinv. destruct Hinv as [Hsum _].
  split; [| split].
  - rewrite sum_values_insert. lia.
  - rewrite lookup_insert_eq. eauto.
  - reflexivity.
Qed.

Example discard_docstring :
  Counter.discard (<["a" := 10]> (<["b" := 1]> (<["c" := 1]> ∅)) : gmap string Z) 3 "<unk>"
  = <["a" := 10]> (<["<unk>" := 2]> ∅).
Proof. apply map_eq. intros k. vm_compute. reflexivity. Qed.

(** ** [DefaultLookupDict] *)

(** C10: [__getitem__] returns, for every key, the stored value when the
    key is present and the default given to the constructor otherwise; it
    raises nothing, where the look-up of a plain [dict] raises [KeyError]
    for an absent key. *)
Theorem default_lookup_total `{Countable K} {V : Type} (default : V)
    (d : option (gmap K V)) (self : DefaultLookupDict.t K V) (k : K) :
  DefaultLookupDict.__getitem__ self k
    = inr (match DefaultLookupDict.items self !! k with
           | Some v => v
           | None => DefaultLookupDict._default self
           end) /\
  ~ (exists e, DefaultLookupDict.__getitem__ self k = inl e) /\
  DefaultLookupDict.__getitem__ (DefaultLookupDict.__init__ default d) k
    = inr (match d with
           | Some m => match m !! k with Some v => v | None => default end
           | None => default
           end).
Proof.
  split; [reflexivity |]. split.
  - intros [e He]. discriminate He.
  - unfold DefaultLookupDict.__getitem__, DefaultLookupDict.__init__, dict_get.
    destruct d as [m |]; cbn [DefaultLookupDict.dict_truthy].
    + case_bool_decide as Hm; cbn [negb DefaultLookupDict.items DefaultLookupDict._default].
      * subst m. by rewrite lookup_empty.
      * reflexivity.
    + cbn. by rewrite lookup_empty.
Qed.

Example plain_dict_raises :
  dict_getitem (<["a" := 1]> ∅ : gmap string Z) "b" = inl KeyError.
Proof. reflexivity. Qed.

(** * Further properties *)

(** ** The pad length *)

(** X1: for [length > overlap] the pad length is defined, is less than one
    stride, leaves a whole number of strides after the first window, and
    is the least padding that does. *)
Theorem slice_pad_length_least (num_items length overlap : Z) :
  overlap < length ->
  exists pad_len,
    _slice_pad_length num_items length overlap = inr pad_len /\
    0 <= pad_len < length - overlap /\
    (num_items + pad_len - length) `mod` (length - overlap) = 0 /\
    forall p, 0 <= p -> (num_items + p - length) `mod` (length - overlap) = 0 ->
              pad_len <= p.
Proof.
  intros Hlt. unfold _slice_pad_length.
  destruct (Z.leb_spec length overlap); [lia |].
  set (step := length - overlap). set (span := num_items - length).
  assert (Hstep : 0 < step) by (subst step; lia).
  pose proof (Z.mod_pos_bound span step Hstep) as Hr.
  pose proof (Z.div_mod span step ltac:(lia)) as Hqr.
  assert (Hleast : forall p, 0 <= p -> (num_items + p - length) `mod` step = 0 ->
                             (step - span `mod` step) `mod` step <= p).
  { intros p Hp Hal. apply Z.mod_divide in Hal; [| lia]. destruct Hal as [k Hk].
    destruct (Z.eq_dec (span `mod` step) 0) as [Hz | Hnz].
    - rewrite Hz, Z.sub_0_r, Z.mod_same by lia. lia.
    - rewrite Z.mod_small by lia.
      assert (span + p = k * step) by (subst span; lia).
      assert (span `div` step < k) by nia.
      nia. }
  unfold truthy, PyBool_int.
  destruct (Z.eqb_spec (span `mod` step) 0) as [Hz | Hnz]; cbn [negb].
  - exists 0. split; [reflexivity |]. split; [lia |]. split.
    + replace (num_items + 0 - length) with span by (subst span; lia). exact Hz.
    + intros; lia.
  - exists (step - span `mod` step). split; [reflexivity |]. split; [lia |]. split.
    + replace (num_items + (step - span `mod` step) - length)
        with ((span `div` step + 1) * step) by (subst span; lia).
      apply Z.mod_mul. lia.
    + intros p Hp Hal. specialize (Hleast p Hp Hal).
      rewrite Z.mod_small in Hleast by lia. exact Hleast.
Qed.

Lemma slice_pad_length_least_witness :
  exists pad_len,
    _slice_pad_length 7 4 1 = inr pad_len /\
    0 <= pad_len < 4 - 1 /\
    (7 + pad_len - 4) `mod` (4 - 1) = 0 /\
    forall p, 0 <= p -> (7 + p - 4) `mod` (4 - 1) = 0 -> pad_len <= p.
Proof. apply (slice_pad_length_least 7 4 1). lia. Defined.

Lemma slice_pad_length_aligned num_items length overlap :
  overlap < length ->
  (num_items - length) `mod` (length - overlap) = 0 ->
  _slice_pad_length num_items length overlap = inr 0.
Proof.
  intros Hlt Hal. unfold _slice_pad_length.
  destruct (Z.leb_spec length overlap); [lia |].
  rewrite Hal. reflexivity.
Qed.

(** X2: when the sequence already ends on a window boundary,
    [pad_last=True] adds nothing: the result is that of [pad_last=False]. *)
Theorem slice_sequence_aligned_pad_noop {T : Type} (sequence : list T) (length : Z)
    (pad_val : T) (overlap : Z) :
  overlap < length ->
  (len sequence - length) `mod` (length - overlap) = 0 ->
  slice_sequence sequence length true pad_val overlap
  = slice_sequence sequence length false pad_val overlap.
Proof.
  intros Hlt Hal. unfold slice_sequence.
  destruct (Z.leb_spec length overlap); [lia |].
  rewrite (slice_pad_length_aligned _ _ _ Hlt Hal).
  cbn [bind ret]. unfold repeat_list. cbn [Z.to_nat replicate].
  by rewrite app_nil_r.
Qed.

Lemma slice_sequence_aligned_pad_noop_witness :
  slice_sequence [1; 2; 3; 4; 5; 6] 4 true 0 2
  = slice_sequence [1; 2; 3; 4; 5; 6] 4 false 0 2.
Proof.
  apply (slice_sequence_aligned_pad_noop [1; 2; 3; 4; 5; 6] 4 0 2); [lia | reflexivity].
Defined.

Lemma slice_sequence_pad_covers_witness :
  exists pad_len windows,
    _slice_pad_length (len [1; 2; 3; 4; 5]) 3 1 = inr pad_len /\
    3 <= len ([1; 2; 3; 4; 5] ++ repeat_list 0 pad_len) /\
    slice_sequence [1; 2; 3; 4; 5] 3 true 0 1 = inr windows /\
    windows <> [] /\
    forall x, x ∈ [1; 2; 3; 4; 5] -> exists w, w ∈ windows /\ x ∈ w.
Proof.
  apply (slice_sequence_pad_covers [1; 2; 3; 4; 5] 3 0 1); [lia | reflexivity].
Defined.

(** ** Padding against no padding *)

Lemma slice_pad_length_bound num_items length overlap pad_len :
  _slice_pad_length num_items length overlap = inr pad_len ->
  0 <= pad_len < length - overlap.
Proof.
  unfold _slice_pad_length.
  destruct (Z.leb_spec length overlap); [discriminate |].
  pose proof (Z.mod_pos_bound (num_items - length) (length - overlap) ltac:(lia)).
  unfold truthy, PyBool_int.
  destruct (Z.eqb_spec ((num_items - length) `mod` (length - overlap)) 0);
    cbn [negb]; intros [= <-]; lia.
Qed.

Lemma range_clamp (n : Z) : range n = range (Z.max n 0).
Proof. unfold range, seqZ. do 2 f_equal. lia. Qed.

Lemma len_app {T : Type} (s1 s2 : list T) : len (s1 ++ s2) = len s1 + len s2.
Proof. unfold len. rewrite length_app. lia. Qed.

(** A window that ends inside the sequence does not see what is appended
    to the sequence. *)
Lemma slice_app_inside {T : Type} (s pads : list T) a k :
  0 <= a -> 0 <= k -> a + k <= len s ->
  slice (s ++ pads) a (a + k) = slice s a (a + k).
Proof.
  intros Ha Hk Hin.
  rewrite !slice_inside by (rewrite ?len_app; unfold len in *; lia).
  unfold len in Hin.
  rewrite drop_app_le by lia.
  rewrite take_app_le by (rewrite length_drop; lia).
  reflexivity.
Qed.

(** X4: padding leaves the windows cut without padding as they are and
    adds at most one window after them. *)
Theorem slice_sequence_pad_extends {T : Type} (sequence : list T) (length : Z)
    (pad_val : T) (overlap : Z) :
  0 <= overlap < length ->
  exists windows extra,
    slice_sequence sequence length false pad_val overlap = inr windows /\
    slice_sequence sequence length true pad_val overlap = inr (windows ++ extra) /\
    (List.length extra <= 1)%nat.
Proof.
  intros Hlo.
  destruct (slice_sequence_pad sequence length pad_val overlap ltac:(lia))
    as (pad_len & Hpad & _ & Heq).
  pose proof (slice_pad_length_bound _ _ _ _ Hpad) as Hbound.
  cbv zeta in Heq.
  set (padded := sequence ++ repeat_list pad_val pad_len) in *.
  set (step := length - overlap) in *.
  assert (Hlen : len padded = len sequence + pad_len).
  { unfold padded. rewrite len_app. unfold len, repeat_list.
    rewrite length_replicate. lia. }
  set (N := (len sequence - length) `div` step + 1).
  set (N' := (len padded - length) `div` step + 1) in *.
  assert (HN : N <= N' <= N + 1).
  { unfold N, N'. rewrite Hlen. split.
    - apply Z.add_le_mono_r, Z.div_le_mono; lia.
    - assert (Hup : (len sequence + pad_len - length) `div` step
                    <= (len sequence - length + 1 * step) `div` step)
        by (apply Z.div_le_mono; lia).
      rewrite Z.div_add in Hup by lia. lia. }
  exists (map (fun i => slice sequence (i * step) ((i + 1) * length - i * overlap)) (range N)).
  exists (map (fun i => slice padded (i * step) ((i + 1) * length - i * overlap))
              (seqZ (Z.max N 0) (Z.max N' 0 - Z.max N 0))).
  split; [apply slice_sequence_no_pad; lia |]. split.
  - rewrite Heq. f_equal.
    rewrite (range_clamp N'), (range_clamp N). unfold range.
    replace (Z.max N' 0) with (Z.max N 0 + (Z.max N' 0 - Z.max N 0)) at 1 by lia.
    rewrite seqZ_app by lia. rewrite map_app. f_equal.
    apply map_ext_in. intros i Hi.
    apply list_elem_of_In, elem_of_seqZ in Hi.
    pose proof (sample_inside (len sequence) length overlap i ltac:(lia) ltac:(fold step; lia)).
    replace ((i + 1) * length - i * overlap) with (i * step + length) by (subst step; lia).
    apply slice_app_inside; subst step; nia.
  - rewrite length_map, length_seqZ. lia.
Qed.

(** ** Neighbouring windows *)

(** Whatever [pad_last] is, the result is the list of windows of one
    sequence [q]: the argument itself or the argument padded. *)
Lemma slice_sequence_as_windows {T : Type} (sequence : list T) length pad_last
    pad_val overlap :
  overlap < length ->
  exists q,
    slice_sequence sequence length pad_last pad_val overlap =
    inr (map (fun i => slice q (i * (length - overlap)) ((i + 1) * length - i * overlap))
             (range ((len q - length) `div` (length - overlap) + 1))).
Proof.
  intros Hlt. destruct pad_last.
  - destruct (slice_sequence_pad sequence length pad_val overlap Hlt)
      as (pad_len & _ & _ & Heq).
    eexists. exact Heq.
  - exists sequence. by apply slice_sequence_no_pad.
Qed.

Lemma lookup_window {T : Type} (q : list T) length overlap (i : nat) w :
  0 <= overlap < length ->
  map (fun i => slice q (i * (length - overlap)) ((i + 1) * length - i * overlap))
      (range ((len q - length) `div` (length - overlap) + 1)) !! i = Some w ->
  w = take (Z.to_nat length) (drop (i * Z.to_nat (length - overlap)) q) /\
  (i * Z.to_nat (length - overlap) + Z.to_nat length <= List.length q)%nat.
Proof.
  intros Hlo Hw.
  change (map ?f ?l) with (f <$> l) in Hw.
  rewrite list_lookup_fmap in Hw.
  destruct (range _ !! i) as [j |] eqn:Hj; [| discriminate].
  injection Hw as <-.
  unfold range in Hj. apply lookup_seqZ in Hj as [-> Hi].
  rewrite Z.add_0_l.
  pose proof (sample_inside (len q) length overlap (Z.of_nat i) ltac:(lia) ltac:(lia)) as Hin.
  split.
  - rewrite slice_is_spec_window by (assumption || lia). reflexivity.
  - unfold len in Hin. nia.
Qed.

(** X5: with [length > overlap >= 0], padded or not, the last [overlap]
    items of a window are the first [overlap] items of the next one. *)
Theorem slice_sequence_consecutive_overlap {T : Type} (sequence : list T) (length : Z)
    (pad_last : bool) (pad_val : T) (overlap : Z) (windows : list (list T))
    (i : nat) (w1 w2 : list T) :
  0 <= overlap < length ->
  slice_sequence sequence length pad_last pad_val overlap = inr windows ->
  windows !! i = Some w1 ->
  windows !! S i = Some w2 ->
  drop (Z.to_nat (length - overlap)) w1 = take (Z.to_nat overlap) w2.
Proof.
  intros Hlo Hws H1 H2.
  destruct (slice_sequence_as_windows sequence length pad_last pad_val overlap ltac:(lia))
    as [q Hq].
  rewrite Hq in Hws. injection Hws as <-.
  apply (lookup_window q length overlap) in H1 as [-> Hin1]; [| assumption].
  apply (lookup_window q length overlap) in H2 as [-> Hin2]; [| assumption].
  set (step := Z.to_nat (length - overlap)) in *.
  rewrite take_take.
  replace (Z.to_nat overlap `min` Z.to_nat length)%nat with (Z.to_nat overlap) by lia.
  replace (Z.to_nat length) with (step + Z.to_nat overlap)%nat by (subst step; lia).
  rewrite <- take_drop_commute, drop_drop.
  do 2 f_equal. lia.
Qed.

Lemma slice_sequence_consecutive_overlap_witness :
  drop (Z.to_nat (4 - 2)) [1; 2; 3; 4] = take (Z.to_nat 2) [3; 4; 5; 6].
Proof.
  apply (slice_sequence_consecutive_overlap [1; 2; 3; 4; 5; 6] 4 false 0 2
           [[1; 2; 3; 4]; [3; 4; 5; 6]] 0); [lia | reflexivity ..].
Defined.

(** ** Joining the windows *)

Lemma concat_spec_windows {T : Type} (s : list T) length :
  0 < length -> len s `mod` length = 0 ->
  concat (spec_windows s length 0) = s.
Proof.
  intros Hpos Hdiv.
  apply Z.mod_divide in Hdiv; [| lia]. destruct Hdiv as [q Hq].
  unfold spec_windows, spec_window, spec_num_windows.
  rewrite Z.sub_0_r.
  assert (Hq0 : 0 <= q) by (unfold len in *; nia).
  destruct (Z.ltb_spec (len s) length) as [Hshort | Hlong].
  - assert (q = 0) by nia. subst q.
    destruct s; [reflexivity | discriminate].
  - replace (Z.to_nat ((len s - length) `div` length + 1)) with (Z.to_nat q).
    + apply concat_chunks. unfold len in Hq. nia.
    + rewrite Hq. replace (q * length - length) with ((q - 1) * length) by lia.
      rewrite Z.div_mul by lia. f_equal. lia.
Qed.

Lemma slice_sequence_pad_by_hand {T : Type} (sequence : list T) length pad_val
    overlap pad_len :
  _slice_pad_length (len sequence) length overlap = inr pad_len ->
  slice_sequence sequence length true pad_val overlap
  = slice_sequence (sequence ++ repeat_list pad_val pad_len) length false pad_val overlap.
Proof.
  intros Hpad. unfold slice_sequence.
  destruct (length <=? overlap); [reflexivity |].
  rewrite Hpad. reflexivity.
Qed.

(** X6: without overlap and with [pad_last=True], joining the windows in
    order gives the sequence followed by the pad values, fewer than
    [length] of them: no item is lost, moved or repeated. *)
Theorem slice_sequence_pad_concat {T : Type} (sequence : list T) (length : Z)
    (pad_val : T) :
  0 < length ->
  exists pad_len windows,
    0 <= pad_len < length /\
    slice_sequence sequence length true pad_val 0 = inr windows /\
    concat windows = sequence ++ repeat_list pad_val pad_len.
Proof.
  intros Hpos.
  destruct (slice_pad_length_ok (len sequence) length 0 Hpos) as (pad_len & Hpad & _).
  pose proof (slice_pad_length_bound _ _ _ _ Hpad) as Hbound.
  destruct (slice_pad_length_strides (len sequence) length 0 pad_len Hpos Hpad)
    as (m & Hm & _ & _).
  set (padded := sequence ++ repeat_list pad_val pad_len).
  assert (Hlen : len padded = len sequence + pad_len).
  { unfold padded. rewrite len_app. unfold len, repeat_list.
    rewrite length_replicate. lia. }
  exists pad_len, (spec_windows padded length 0).
  split; [lia |]. split.
  - rewrite (slice_sequence_pad_by_hand _ _ _ _ _ Hpad).
    apply slice_sequence_no_pad_windows. lia.
  - apply concat_spec_windows; [assumption |].
    change (len padded `mod` length = 0).
    rewrite Hlen. replace (len sequence + pad_len) with ((m + 1) * length) by lia.
    apply Z.mod_mul. lia.
Qed.

Lemma slice_sequence_pad_concat_witness :
  exists pad_len windows,
    0 <= pad_len < 3 /\
    slice_sequence [1; 2; 3; 4; 5] 3 true 0 0 = inr windows /\
    concat windows = [1; 2; 3; 4; 5] ++ repeat_list 0 pad_len.
Proof. apply (slice_sequence_pad_concat [1; 2; 3; 4; 5] 3 0). lia. Defined.

(** X7: slicing without overlap and padding and then [concat_sequence]
    gives the sequence back when [length] divides its length and every
    token is truthy. *)
Theorem concat_sequence_slice_roundtrip {T : Type} `{PyBool T} (sequence : list T)
    (length : Z) (pad_val : T) :
  0 < length ->
  len sequence `mod` length = 0 ->
  Forall (fun token => truthy token = true) sequence ->
  exists windows,
    slice_sequence sequence length false pad_val 0 = inr windows /\
    concat_sequence windows = sequence.
Proof.
  intros Hpos Hdiv Htruthy.
  exists (spec_windows sequence length 0).
  split; [apply slice_sequence_no_pad_windows; lia |].
  rewrite concat_sequence_filter, concat_spec_windows by assumption.
  apply forallb_filter_id, forallb_forall.
  intros x Hx. rewrite Forall_forall in Htruthy.
  apply Htruthy, list_elem_of_In, Hx.
Qed.

Lemma concat_sequence_slice_roundtrip_witness :
  exists windows,
    slice_sequence [1; 2; 3; 4] 2 false 0 0 = inr windows /\
    concat_sequence windows = [1; 2; 3; 4].
Proof.
  apply (concat_sequence_slice_roundtrip [1; 2; 3; 4] 2 0);
    [lia | reflexivity | repeat constructor].
Defined.

(** ** [Counter.discard] as a filter *)

Section discard_facts.
Context `{Countable K}.
Implicit Types (c kept : gmap K Z) (k : K).

(** The loop ends with [freq] the total of the counts below [min_freq]
    and [ret] the entries at or above it. *)
Lemma discard_fold c min_freq :
  map_fold (Counter.discard_step min_freq) (0, ∅) c
  = (sum_values (filter (fun kv : K * Z => kv.2 < min_freq) c),
     filter (fun kv : K * Z => min_freq <= kv.2) c).
Proof.
  apply (map_fold_weak_ind
           (fun (st : Z * gmap K Z) (m : gmap K Z) =>
              st = (sum_values (filter (fun kv : K * Z => kv.2 < min_freq) m),
                    filter (fun kv : K * Z => min_freq <= kv.2) m))).
  - rewrite 2!map_filter_empty. reflexivity.
  - intros token count m st Hfresh ->. unfold Counter.discard_step.
    destruct (Z.ltb_spec count min_freq) as [Hlow | Hhigh].
    + rewrite map_filter_insert_True by (simpl; lia).
      rewrite sum_values_insert_fresh
        by (apply map_lookup_filter_None_2; by left).
      rewrite map_filter_insert_False, delete_id by (assumption || simpl; lia).
      f_equal. lia.
    + rewrite (map_filter_insert_False (fun kv : K * Z => kv.2 < min_freq))
        by (simpl; lia).
      rewrite delete_id by assumption.
      rewrite map_filter_insert_True by (simpl; lia).
      reflexivity.
Qed.

Lemma discard_as_filter c min_freq unknown_token :
  Counter.discard c min_freq unknown_token
  = <[unknown_token :=
        dict_get (filter (fun kv : K * Z => min_freq <= kv.2) c) unknown_token 0
        + sum_values (filter (fun kv : K * Z => kv.2 < min_freq) c)]>
      (filter (fun kv : K * Z => min_freq <= kv.2) c).
Proof. unfold Counter.discard. by rewrite discard_fold. Qed.

(** A counter whose counts all reach [min_freq], but for the entry of
    [unknown_token], is left as it is by [discard]. *)
Lemma discard_fixed kept min_freq unknown_token u :
  (forall k v, kept !! k = Some v -> min_freq <= v) ->
  Counter.discard (<[unknown_token := u]> kept) min_freq unknown_token
  = <[unknown_token := u]> kept.
Proof.
  intros Hkept. rewrite discard_as_filter.
  assert (Habove : filter (fun kv : K * Z => min_freq <= kv.2) kept = kept)
    by (apply map_filter_id; intros; simpl; eauto).
  assert (Hbelow : filter (fun kv : K * Z => kv.2 < min_freq) kept = ∅).
  { apply map_empty. intros k. apply map_lookup_filter_None_2.
    destruct (kept !! k) as [v |] eqn:Hk; [right | by left].
    intros x [= <-]. specialize (Hkept k v Hk). simpl. lia. }
  destruct (Z.lt_ge_cases u min_freq) as [Hlow | Hhigh].
  - rewrite (map_filter_insert_False (fun kv : K * Z => min_freq <= kv.2))
      by (simpl; lia).
    rewrite map_filter_insert_True by (simpl; lia).
    rewrite map_filter_delete, Habove, Hbelow.
    unfold dict_get. rewrite lookup_delete_eq.
    rewrite insert_empty. unfold sum_values. rewrite map_fold_singleton.
    rewrite insert_delete_eq. f_equal. lia.
  - rewrite (map_filter_insert_True (fun kv : K * Z => min_freq <= kv.2))
      by (simpl; lia).
    rewrite (map_filter_insert_False (fun kv : K * Z => kv.2 < min_freq))
      by (simpl; lia).
    rewrite map_filter_delete, Habove, Hbelow, delete_empty.
    pose proof (@sum_values_empty K _ _) as Hzero.
    unfold dict_get. rewrite lookup_insert_eq, insert_insert_eq. f_equal. lia.
Qed.
End discard_facts.

(** X8: [discard] keeps the entries whose count is at least [min_freq] and
    then sets the entry of [unknown_token] to its kept count, 0 if none,
    plus the total of the counts below [min_freq]. *)
Theorem discard_keeps_frequent `{Countable K} (c : gmap K Z) (min_freq : Z)
    (unknown_token : K) :
  Counter.discard c min_freq unknown_token
  = <[unknown_token :=
        dict_get (filter (fun kv : K * Z => min_freq <= kv.2) c) unknown_token 0
        + sum_values (filter (fun kv : K * Z => kv.2 < min_freq) c)]>
      (filter (fun kv : K * Z => min_freq <= kv.2) c).
Proof. apply discard_as_filter. Qed.

(** X9: a token other than [unknown_token] is in the result exactly when
    its count in [c] is at least [min_freq], and then with that count. *)
Theorem discard_lookup_other `{Countable K} (c : gmap K Z) (min_freq : Z)
    (unknown_token token : K) :
  token <> unknown_token ->
  Counter.discard c min_freq unknown_token !! token
  = match c !! token with
    | Some count => if count <? min_freq then None else Some count
    | None => None
    end.
Proof.
  intros Hne. rewrite discard_as_filter, lookup_insert_ne by congruence.
  destruct (c !! token) as [count |] eqn:Hc.
  - destruct (Z.ltb_spec count min_freq).
    + apply map_lookup_filter_None_2. right. intros x Hx. simpl. 
      rewrite Hc in Hx. injection Hx as <-. lia.
    + apply map_lookup_filter_Some_2; [assumption | simpl; lia].
  - apply map_lookup_filter_None_2. by left.
Qed.

Lemma discard_lookup_other_witness :
  Counter.discard (<["a" := 10]> (<["b" := 1]> ∅) : gmap string Z) 3 "<unk>" !! "b"
  = match (<["a" := 10]> (<["b" := 1]> ∅) : gmap string Z) !! "b" with
    | Some count => if count <? 3 then None else Some count
    | None => None
    end.
Proof.
  apply (discard_lookup_other (<["a" := 10]> (<["b" := 1]> ∅) : gmap string Z) 3 "<unk>" "b").
  discriminate.
Defined.

(** X10: discarding twice with the same threshold and unknown token is
    discarding once. *)
Theorem discard_idempotent `{Countable K} (c : gmap K Z) (min_freq : Z)
    (unknown_token : K) :
  Counter.discard (Counter.discard c min_freq unknown_token) min_freq unknown_token
  = Counter.discard c min_freq unknown_token.
Proof.
  rewrite (discard_as_filter c). apply discard_fixed.
  intros k v Hk. apply map_lookup_filter_Some_1_2 in Hk. exact Hk.
Qed.

(** ** Counting tokens *)

Section counter_update_facts.
Context `{Countable K}.
Implicit Types (c : gmap K Z) (tokens : list K) (t : K).

Lemma counter_update_cons c t tokens :
  counter_update c (t :: tokens)
  = counter_update (<[t := dict_get c t 0 + 1]> c) tokens.
Proof. reflexivity. Qed.

Lemma counter_update_app c tokens1 tokens2 :
  counter_update c (tokens1 ++ tokens2)
  = counter_update (counter_update c tokens1) tokens2.
Proof. unfold counter_update. apply foldl_app. Qed.

Lemma counter_update_sum c tokens :
  sum_values (counter_update c tokens) = sum_values c + len tokens.
Proof.
  revert c. induction tokens as [| t tokens IH]; intros c.
  - unfold len. simpl. lia.
  - rewrite counter_update_cons, IH, sum_values_insert.
    unfold len. simpl length. lia.
Qed.

Lemma occurrences_cons t x tokens :
  occurrences t (x :: tokens)
  = (if decide (x = t) then 1 else 0) + occurrences t tokens.
Proof.
  unfold occurrences, len. rewrite filter_cons.
  destruct (decide (x = t)); simpl length; lia.
Qed.

Lemma counter_update_get c tokens t :
  dict_get (counter_update c tokens) t 0 = dict_get c t 0 + occurrences t tokens.
Proof.
  revert c. induction tokens as [| x tokens IH]; intros c.
  - unfold occurrences, len. simpl. lia.
  - rewrite counter_update_cons, IH, occurrences_cons.
    unfold dict_get at 1.
    destruct (decide (x = t)) as [-> | Hne].
    + rewrite lookup_insert_eq. lia.
    + rewrite lookup_insert_ne by assumption. fold (dict_get c t 0). lia.
Qed.

Lemma counter_update_is_Some c tokens t :
  is_Some (counter_update c tokens !! t) <-> is_Some (c !! t) \/ t ∈ tokens.
Proof.
  revert c. induction tokens as [| x tokens IH]; intros c.
  - simpl. rewrite elem_of_nil. tauto.
  - rewrite counter_update_cons, IH, lookup_insert_is_Some, elem_of_cons.
    destruct (decide (x = t)) as [-> | Hne]; intuition congruence.
Qed.

(** Counting two tokens in either order gives the same counter. *)
Lemma counter_update_swap c x y :
  counter_update c [x; y] = counter_update c [y; x].
Proof.
  unfold counter_update. simpl. unfold dict_get.
  destruct (decide (x = y)) as [-> | Hne]; [reflexivity |].
  rewrite !lookup_insert_ne by congruence.
  apply insert_insert_ne. congruence.
Qed.

Lemma counter_update_perm c tokens1 tokens2 :
  tokens1 ≡ₚ tokens2 -> counter_update c tokens1 = counter_update c tokens2.
Proof.
  intros Hperm. revert c.
  induction Hperm as [| x l1 l2 _ IH | x y l | l1 l2 l3 _ IH1 _ IH2]; intros c.
  - reflexivity.
  - rewrite !counter_update_cons. apply IH.
  - change (counter_update c ([y; x] ++ l) = counter_update c ([x; y] ++ l)).
    by rewrite !counter_update_app, counter_update_swap.
  - by rewrite IH1.
Qed.
End counter_update_facts.

(** X11: [count_tokens] adds one count per token: the counts of the
    result add up to those of the given counter, 0 without one, plus the
    number of tokens. *)
Theorem count_tokens_total (lower : string -> string) (tokens : list string)
    (to_lower : bool) (counter : option (gmap string Z)) :
  sum_values (count_tokens lower tokens to_lower counter)
  = match counter with Some c => sum_values c | None => 0 end + len tokens.
Proof.
  assert (Hlen : len (if to_lower then map lower tokens else tokens) = len tokens).
  { destruct to_lower; [| reflexivity]. unfold len. by rewrite length_map. }
  unfold count_tokens. cbv zeta.
  destruct counter as [c |]; rewrite counter_update_sum, Hlen; [reflexivity |].
  f_equal.
Qed.

(** X12: after [count_tokens] the count of a token is its count in the
    given counter plus the number of times it occurs among the tokens,
    lower-cased first when [to_lower] is set; and a token is a key of the
    result exactly when it was a key before or occurs among them. *)
Theorem count_tokens_counts (lower : string -> string) (tokens : list string)
    (to_lower : bool) (counter : option (gmap string Z)) (t : string) :
  let counted := if to_lower then map lower tokens else tokens in
  let before := match counter with Some c => c | None => ∅ end in
  dict_get (count_tokens lower tokens to_lower counter) t 0
    = dict_get before t 0 + occurrences t counted /\
  (is_Some (count_tokens lower tokens to_lower counter !! t)
     <-> is_Some (before !! t) \/ t ∈ counted).
Proof.
  cbv zeta. unfold count_tokens.
  destruct counter as [c |]; split;
    (apply counter_update_get || apply counter_update_is_Some).
Qed.

(** X13: counting a list in two parts, the second call given the counter
    of the first, is counting the whole list at once. *)
Theorem count_tokens_incremental (lower : string -> string)
    (tokens1 tokens2 : list string) (to_lower : bool)
    (counter : option (gmap string Z)) :
  count_tokens lower tokens2 to_lower
    (Some (count_tokens lower tokens1 to_lower counter))
  = count_tokens lower (tokens1 ++ tokens2) to_lower counter.
Proof.
  unfold count_tokens. cbv zeta.
  destruct to_lower; rewrite ?map_app; destruct counter;
    by rewrite counter_update_app.
Qed.

(** X14: the counter does not depend on the order of the tokens. *)
Theorem count_tokens_permutation (lower : string -> string)
    (tokens1 tokens2 : list string) (to_lower : bool)
    (counter : option (gmap string Z)) :
  tokens1 ≡ₚ tokens2 ->
  count_tokens lower tokens1 to_lower counter
  = count_tokens lower tokens2 to_lower counter.
Proof.
  intros Hperm. unfold count_tokens. cbv zeta.
  assert (Hcounted : (if to_lower then map lower tokens1 else tokens1)
                     ≡ₚ (if to_lower then map lower tokens2 else tokens2)).
  { destruct to_lower; [| assumption]. by apply Permutation_map. }
  destruct counter; by apply counter_update_perm.
Qed.

Lemma count_tokens_permutation_witness :
  count_tokens (fun s => s) ["is"; "life"; "is"] false None
  = count_tokens (fun s => s) ["life"; "is"; "is"] false None.
Proof.
  apply (count_tokens_permutation (fun s => s) ["is"; "life"; "is"] ["life"; "is"; "is"]).
  apply perm_swap.
Defined.

(** ** Short hashes *)

Example short_hash_gbw : short_hash "gbw" = inr "ebb1a287"%string.
Proof. vm_compute. reflexivity. Qed.

(** Each hash of the table is long enough for its first eight characters
    to be eight characters. *)
Lemma vocab_sha1_prefixes :
  forallb (fun p : string * string =>
             (String.length (str_slice p.2 0 8) =? 8)%nat
             && String.prefix (str_slice p.2 0 8) p.2)
          _vocab_sha1_items = true.
Proof. vm_compute. reflexivity. Qed.

(** X15: when [short_hash] returns, the name is one of the table and the
    result is the first eight characters of its hash. *)
Theorem short_hash_prefix (name h : string) :
  short_hash name = inr h ->
  exists sha1,
    (name, sha1) ∈ _vocab_sha1_items /\
    String.length h = 8%nat /\
    String.prefix h sha1 = true.
Proof.
  unfold short_hash.
  destruct (_vocab_sha1 !! name) as [sha1 |] eqn:Hlook; [| discriminate].
  intros [= <-]. exists sha1.
  apply elem_of_list_to_map_2 in Hlook.
  split; [assumption |].
  pose proof vocab_sha1_prefixes as Hall.
  rewrite forallb_forall in Hall.
  specialize (Hall (name, sha1) (proj1 (list_elem_of_In _ _) Hlook)).
  cbn [snd] in Hall. apply andb_prop in Hall as [Hlen Hpre].
  split; [by apply Nat.eqb_eq | assumption].
Qed.

Lemma short_hash_prefix_witness :
  exists sha1,
    (("gbw", sha1) : string * string) ∈ _vocab_sha1_items /\
    String.length "ebb1a287" = 8%nat /\
    String.prefix "ebb1a287" sha1 = true.
Proof. apply (short_hash_prefix "gbw" "ebb1a287"). vm_compute. reflexivity. Defined.

(** X16: [short_hash] returns for every name of the table and raises for
    every other name, with the [ValueError] that lists the hosted
    vocabularies. *)
Theorem short_hash_raises_iff (name : string) :
  ((exists h, short_hash name = inr h) <-> name ∈ map fst _vocab_sha1_items) /\
  (short_hash name = inl (short_hash_error name)
     <-> name ∉ map fst _vocab_sha1_items).
Proof.
  unfold short_hash.
  destruct (_vocab_sha1 !! name) as [sha1 |] eqn:Hlook.
  - assert (Hin : name ∈ map fst _vocab_sha1_items).
    { apply elem_of_list_to_map_2 in Hlook.
      apply (list_elem_of_fmap_2 fst) in Hlook. exact Hlook. }
    split; split; try (intros; assumption); try discriminate.
    + intros _. eexists. reflexivity.
    + intros Hout. contradiction.
  - assert (Hout : name ∉ map fst _vocab_sha1_items)
      by (by apply not_elem_of_list_to_map_2).
    split; split; try (intros; assumption); try reflexivity.
    + intros [h Hh]. discriminate Hh.
    + intros Hin. contradiction.
Qed.

Lemma vocab_sha1_keys_distinct : NoDup (map fst _vocab_sha1_items).
Proof. apply (bool_decide_unpack _). vm_compute. reflexivity. Qed.

(** ** When [concat_sequence] is a plain flattening *)

Lemma filter_id_iff {A : Type} (f : A -> bool) (l : list A) :
  List.filter f l = l <-> Forall (fun x => f x = true) l.
Proof.
  split.
  - intros Heq. apply Forall_forall. intros x Hx.
    apply list_elem_of_In in Hx. rewrite <- Heq in Hx.
    apply filter_In in Hx. tauto.
  - intros Hall. apply forallb_filter_id, forallb_forall.
    intros x Hx. rewrite Forall_forall in Hall.
    apply Hall, list_elem_of_In, Hx.
Qed.

(** X17: [concat_sequence] returns the plain concatenation of the inner
    sequences exactly when every token of them is truthy. *)
Theorem concat_sequence_flatten_iff {T : Type} `{PyBool T} (sequences : list (list T)) :
  concat_sequence sequences = concat sequences
  <-> Forall (fun token => truthy token = true) (concat sequences).
Proof. rewrite concat_sequence_filter. apply filter_id_iff. Qed.

(** ** The number of windows *)

Lemma len_range (n : Z) : len (range n) = Z.max 0 n.
Proof. unfold len, range. rewrite length_seqZ. lia. Qed.

Lemma len_map {A B : Type} (f : A -> B) (l : list A) : len (map f l) = len l.
Proof. unfold len. by rewrite length_map. Qed.

Lemma len_repeat_list {T : Type} (x : T) (k : Z) : len (repeat_list x k) = Z.max 0 k.
Proof. unfold len, repeat_list. rewrite length_replicate. lia. Qed.

(** X18: for [length > overlap] the number of windows is
    [(n - overlap) / step], with [n] the length of the sequence and
    [step = length - overlap], rounded down without padding and rounded up
    with padding, and 0 when that is negative. *)
Theorem slice_sequence_count {T : Type} (sequence : list T) (length : Z)
    (pad_last : bool) (pad_val : T) (overlap : Z) :
  overlap < length ->
  exists windows,
    slice_sequence sequence length pad_last pad_val overlap = inr windows /\
    len windows
    = Z.max 0 ((len sequence - overlap
                + (if pad_last then length - overlap - 1 else 0))
               `div` (length - overlap)).
Proof.
  intros Hlt. destruct pad_last.
  - destruct (slice_sequence_pad sequence length pad_val overlap Hlt)
      as (pad_len & Hpad & _ & Heq).
    cbv zeta in Heq. eexists. split; [exact Heq |].
    pose proof (slice_pad_length_bound _ _ _ _ Hpad) as Hbound.
    destruct (slice_pad_length_strides (len sequence) length overlap pad_len Hlt Hpad)
      as (m & Hm & _ & _).
    rewrite len_map, len_range, len_app, len_repeat_list.
    replace (Z.max 0 pad_len) with pad_len by lia.
    rewrite Hm, Z.div_mul by lia.
    f_equal.
    apply (Z.div_unique _ _ _ (length - overlap - 1 - pad_len)); lia.
  - eexists. split; [by apply slice_sequence_no_pad |].
    rewrite len_map, len_range. f_equal.
    rewrite <- Z.div_add by lia. f_equal. lia.
Qed.

Lemma slice_sequence_count_witness :
  exists windows,
    slice_sequence [1; 2; 3; 4; 5; 6; 7] 4 true 0 1 = inr windows /\
    len windows = Z.max 0 ((len [1; 2; 3; 4; 5; 6; 7] - 1 + (4 - 1 - 1)) `div` (4 - 1)).
Proof. apply (slice_sequence_count [1; 2; 3; 4; 5; 6; 7] 4 true 0 1). lia. Defined.

Lemma slice_sequence_pad_extends_witness :
  exists windows extra,
    slice_sequence [1; 2; 3; 4; 5] 3 false 0 0 = inr windows /\
    slice_sequence [1; 2; 3; 4; 5] 3 true 0 0 = inr (windows ++ extra) /\
    (List.length extra <= 1)%nat.
Proof. apply (slice_sequence_pad_extends [1; 2; 3; 4; 5] 3 0 0). lia. Defined.
